(** * The AFL++ persistent-mode stdin harness

    A shallow embedding of
    [materials/fuzzing/aflpp/main_stdin_persist_no_shared.c]: the prefix
    checker [check_buf] and the input loop of [main], with the properties
    the specification states about them.

    The C code is stateful (a stack buffer, standard input, the loop driver)
    and can end in three ways (return, [abort()], an out-of-bounds access),
    so it is embedded in a small state-and-error monad that also records the
    buffer loads and the [read] calls it performs. *)

From Stdlib Require Import ZArith Lia List.
From Stdlib Require Import Strings.Byte.
From stdpp Require Import base option list gmap.

Local Open Scope Z_scope.

(* ===================================================================== *)
(** * Machine model *)
(* ===================================================================== *)

(** [size_t] is a 64-bit unsigned integer (LP64). A value of another integer
    type converted to [size_t] wraps around modulo [2^64]. *)
Definition size_t_bits : Z := 64.
Definition SIZE_MAX : Z := 2 ^ size_t_bits - 1.
Definition to_size_t (z : Z) : Z := z mod 2 ^ size_t_bits.

(** [#define MAX_BUF_SIZE 100] *)
Definition MAX_BUF_SIZE : nat := 100.

(** Memory is a finite map from object names to their bytes. A [char *]
    that points to the start of an object is the object's name. *)
Definition input_buf : positive := 1%positive.

(** What one [read] call on standard input finds: bytes that are ready, or
    a failure (the call returns -1). An empty stream is end of file. *)
Inductive chunk : Type :=
| Data (bs : list byte)
| Failure.

(** Modelled from the spec: the persistent-mode loop driver behind
    [__AFL_LOOP] is not part of the source; the specification says that it
    lets one process serve many test cases by looping and that the loop ends
    after a bounded number of iterations. [passes] counts the iterations
    granted so far, [budget] the test cases the fuzzing engine will still
    serve (1 when the binary runs outside the engine). *)
Record afl_state : Type := AflState {
  passes : nat;
  budget : nat
}.

Record world : Type := World {
  mem : gmap positive (list byte);
  stdin : list chunk;
  afl : afl_state
}.

Definition set_mem (w : world) (m : gmap positive (list byte)) : world :=
  {| mem := m; stdin := stdin w; afl := afl w |}.
Definition set_stdin (w : world) (s : list chunk) : world :=
  {| mem := mem w; stdin := s; afl := afl w |}.
Definition set_afl (w : world) (a : afl_state) : world :=
  {| mem := mem w; stdin := stdin w; afl := a |}.

(** What a run does to its environment, in order: the buffer loads and the
    [read] calls with their return value and the bytes they received. *)
Inductive event : Type :=
| EvLoad (p : positive) (i : nat)
| EvRead (r : Z) (got : list byte).

(** How a computation ends. [Fault] is an access outside an object
    (undefined behaviour in C); [OutOfFuel] belongs to the embedding of
    [while] only. *)
Inductive result (A : Type) : Type :=
| Done (a : A) (w : world)
| Aborted (w : world)
| Fault (w : world)
| OutOfFuel (w : world).
Arguments Done {A} a w.
Arguments Aborted {A} w.
Arguments Fault {A} w.
Arguments OutOfFuel {A} w.

Definition M (A : Type) : Type := world -> list event * result A.

Definition ret {A : Type} (a : A) : M A := fun w => ([], Done a w).

Definition bind {A B : Type} (m : M A) (f : A -> M B) : M B := fun w =>
  match m w with
  | (t, Done a w') => let (t', r) := f a w' in (t ++ t', r)
  | (t, Aborted w') => (t, Aborted w')
  | (t, Fault w') => (t, Fault w')
  | (t, OutOfFuel w') => (t, OutOfFuel w')
  end.

Global Instance M_ret : MRet M := @ret.
Global Instance M_bind : MBind M := fun A B f m => bind m f.

(** C's short-circuit [a && b]: [b] is evaluated only when [a] holds. *)
Definition and_then (a : bool) (b : M bool) : M bool :=
  if a then b else mret false.
Notation "a &&& b" := (and_then a b) (at level 40, left associativity).

(** [while (cond) body], unrolled at most [fuel] times. *)
Fixpoint while (fuel : nat) (cond : M bool) (body : M unit) : M unit :=
  match fuel with
  | O => fun w => ([], OutOfFuel w)
  | S fuel' =>
      c ← cond;
      if c : bool then body;; while fuel' cond body else mret tt
  end.

(* ===================================================================== *)
(** * Library calls *)
(* ===================================================================== *)

(** [p[i]], guarded: outside the object the access faults. *)
Definition load (p : positive) (i : nat) : M byte := fun w =>
  match mem w !! p ≫= (fun bs : list byte => bs !! i) with
  | Some b => ([EvLoad p i], Done b w)
  | None => ([EvLoad p i], Fault w)
  end.

(** [abort()]: the process is killed by SIGABRT. *)
Definition abort {A : Type} : M A := fun w => ([], Aborted w).

(** [memset(p, c, n)]: the first [n] bytes of the object become [c]. *)
Definition memset (p : positive) (c : byte) (n : nat) : M unit := fun w =>
  match mem w !! p with
  | Some bs =>
      if decide (n ≤ length bs)%nat
      then ([], Done tt (set_mem w (<[p := replicate n c ++ drop n bs]> (mem w))))
      else ([], Fault w)
  | None => ([], Fault w)
  end.

(** [read(fd, p, count)] on standard input: at most [count] of the ready
    bytes are stored at the start of the object and the rest stay in the
    stream; the call returns the number of bytes stored, 0 at end of file
    and -1 when it fails, in which case the object is left as it was. No
    other descriptor is open. *)
Definition read (fd : Z) (p : positive) (count : nat) : M Z := fun w =>
  if negb (fd =? 0) then ([EvRead (-1) []], Done (-1) w) else
  match stdin w with
  | [] => ([EvRead 0 []], Done 0 w)
  | Failure :: rest => ([EvRead (-1) []], Done (-1) (set_stdin w rest))
  | Data bs :: rest =>
      let got := take count bs in
      let rest' := match drop count bs with [] => rest | l => Data l :: rest end in
      match mem w !! p with
      | Some old =>
          if decide (length got ≤ length old)%nat
          then ([EvRead (Z.of_nat (length got)) got],
                Done (Z.of_nat (length got))
                  (set_stdin (set_mem w (<[p := got ++ drop (length got) old]> (mem w)))
                     rest'))
          else ([], Fault w)
      | None => ([], Fault w)
      end
  end.

(** [__AFL_INIT()]: starts the fork server; nothing the program can see. *)
Definition AFL_INIT : M unit := mret tt.

(** Modelled from the spec: [__AFL_LOOP(max_cnt)] grants another iteration
    while fewer than [max_cnt] have been granted and the engine has a test
    case left. *)
Definition AFL_LOOP (max_cnt : nat) : M bool := fun w =>
  if (passes (afl w) <? max_cnt)%nat && (0 <? budget (afl w))%nat
  then ([], Done true
              (set_afl w {| passes := S (passes (afl w));
                            budget := pred (budget (afl w)) |}))
  else ([], Done false w).

(* ===================================================================== *)
(** * The program *)
(* ===================================================================== *)

(** [buf[i] == 'x'] *)
Definition char_eqb (x y : byte) : bool := Byte.eqb x y.

(** [void check_buf(char *buf, size_t buf_len)] *)
Definition check_buf (buf : positive) (buf_len : Z) : M unit :=
  c0 ← (buf_len >? 0) &&& (x ← load buf 0; mret (char_eqb x "a"));
  if c0 : bool then
    c1 ← (buf_len >? 1) &&& (x ← load buf 1; mret (char_eqb x "b"));
    if c1 : bool then
      c2 ← (buf_len >? 2) &&& (x ← load buf 2; mret (char_eqb x "c"));
      if c2 : bool then abort else mret tt
    else mret tt
  else mret tt.

(** The first three statements of the loop body: clear the buffer, read,
    convert the return value to [size_t len]. *)
Definition fill_buf : M Z :=
  memset input_buf "000" MAX_BUF_SIZE;;
  r ← read 0 input_buf 100;
  mret (to_size_t r).

(** The body of the [while] loop of [main]. *)
Definition loop_body : M unit :=
  len ← fill_buf;
  check_buf input_buf len.

(** [int main()] *)
Definition main (fuel : nat) : M Z :=
  AFL_INIT;;
  while fuel (AFL_LOOP 1000) loop_body;;
  mret 0.

(** The world [main] starts in: the frame holds [input_buf] with whatever
    bytes [garbage] the stack had, and no iteration has been granted. *)
Definition initial_world (garbage : list byte) (input : list chunk) (cases : nat) : world :=
  {| mem := {[ input_buf := garbage ]};
     stdin := input;
     afl := {| passes := 0; budget := cases |} |}.

(* ===================================================================== *)
(** * How runs end *)
(* ===================================================================== *)

Inductive ending : Type := Returns | Aborts | Faults | Hangs.

Definition ending_of {A : Type} (r : result A) : ending :=
  match r with
  | Done _ _ => Returns
  | Aborted _ => Aborts
  | Fault _ => Faults
  | OutOfFuel _ => Hangs
  end.

(** The byte at index [i] of the object [p], if there is one. *)
Definition byte_at (w : world) (p : positive) (i : nat) : option byte :=
  mem w !! p ≫= (fun bs : list byte => bs !! i).

(** The received bytes start with the three bytes 'a', 'b', 'c'. *)
Definition starts_abc (bs : list byte) : bool :=
  match bs with
  | x :: y :: z :: _ => char_eqb x "a" && char_eqb y "b" && char_eqb z "c"
  | _ => false
  end.

(** The buffer of [main] is there and has its declared size. *)
Definition buf_ok (w : world) : Prop :=
  exists old : list byte, mem w !! input_buf = Some old /\ length old = MAX_BUF_SIZE.

Definition zeros (n : nat) : list byte := replicate n "000"%byte.

(** The [read] calls of a trace. *)
Definition is_read (e : event) : bool :=
  match e with EvRead _ _ => true | EvLoad _ _ => false end.

Definition reads (t : list event) : list event := filter (fun e => is_read e = true) t.

(** One [fill_buf] step in closed form: the bytes the [read] stores, the
    value it returns, the stream it leaves, and the world afterwards. *)
Definition delivered (s : list chunk) : list byte :=
  match s with
  | Data bs :: _ => take 100 bs
  | _ => []
  end.

Definition read_value (s : list chunk) : Z :=
  match s with
  | Failure :: _ => -1
  | _ => Z.of_nat (length (delivered s))
  end.

Definition stream_after (s : list chunk) : list chunk :=
  match s with
  | [] => []
  | Failure :: rest => rest
  | Data bs :: rest =>
      match drop 100 bs with
      | [] => rest
      | l => Data l :: rest
      end
  end.

Definition after_fill (w : world) : world :=
  {| mem := <[input_buf :=
                delivered (stdin w)
                ++ zeros (MAX_BUF_SIZE - length (delivered (stdin w)))]> (mem w);
     stdin := stream_after (stdin w);
     afl := afl w |}.

(** A [read] event within the bound of the call: at most 100 bytes, and a
    return value that is their number or -1. *)
Definition read_within (bound : nat) (e : event) : Prop :=
  match e with
  | EvRead r got =>
      (length got <= bound)%nat /\ (r = Z.of_nat (length got) \/ r = -1 /\ got = [])
  | EvLoad _ _ => True
  end.

(** No [read] of the trace received bytes that start with "abc". *)
Definition quiet (e : event) : Prop :=
  match e with
  | EvRead _ got => starts_abc got = false
  | EvLoad _ _ => True
  end.

Definition no_abc_read (t : list event) : Prop := Forall quiet t.

(** A load of the trace that stays within the first three bytes of the
    buffer of [main]. *)
Definition load_in_prefix (e : event) : Prop :=
  match e with
  | EvLoad p i => p = input_buf /\ (i <= 2)%nat
  | EvRead _ _ => True
  end.

(** A chunk that one [read] of 100 bytes takes whole, and a chunk whose
    bytes start with "abc". *)
Definition chunk_small (c : chunk) : Prop :=
  match c with
  | Data bs => (length bs <= 100)%nat
  | Failure => True
  end.

Definition chunk_abc (c : chunk) : bool :=
  match c with
  | Data bs => starts_abc bs
  | Failure => false
  end.

(* ===================================================================== *)
(** * Evaluation lemmas *)
(* ===================================================================== *)

Lemma char_eqb_eq (x y : byte) : char_eqb x y = true <-> x = y.
Proof.
  unfold char_eqb. split.
  - apply Byte.byte_dec_bl.
  - apply Byte.byte_dec_lb.
Qed.

Lemma char_eqb_neq (x y : byte) : char_eqb x y = false <-> x <> y.
Proof.
  rewrite <- char_eqb_eq. destruct (char_eqb x y); split; congruence.
Qed.

Lemma bind_eq {A B : Type} (m : M A) (f : A -> M B) (w : world) :
  (m ≫= f) w = bind m f w.
Proof. reflexivity. Qed.

Lemma bind_done {A B : Type} (m : M A) (f : A -> M B) w t a w' :
  m w = (t, Done a w') ->
  (m ≫= f) w = (t ++ (f a w').1, (f a w').2).
Proof.
  intros H. rewrite bind_eq. unfold bind. rewrite H.
  destruct (f a w'); reflexivity.
Qed.

Lemma bind_aborted {A B : Type} (m : M A) (f : A -> M B) w t w' :
  m w = (t, Aborted w') -> (m ≫= f) w = (t, Aborted w').
Proof. intros H. rewrite bind_eq. unfold bind. rewrite H. reflexivity. Qed.

Lemma bind_fault {A B : Type} (m : M A) (f : A -> M B) w t w' :
  m w = (t, Fault w') -> (m ≫= f) w = (t, Fault w').
Proof. intros H. rewrite bind_eq. unfold bind. rewrite H. reflexivity. Qed.

Lemma bind_assoc {A B C : Type} (m : M A) (f : A -> M B) (g : B -> M C) w :
  ((m ≫= f) ≫= g) w = (m ≫= (fun a => f a ≫= g)) w.
Proof.
  unfold mbind, M_bind, bind.
  destruct (m w) as [t [a w'| w'| w'| w']]; try reflexivity.
  destruct (f a w') as [t' [b w''| w''| w''| w'']]; try reflexivity.
  destruct (g b w'') as [t'' r]. rewrite app_assoc. reflexivity.
Qed.

Lemma load_eq (p : positive) (i : nat) (w : world) :
  load p i w = match byte_at w p i with
               | Some b => ([EvLoad p i], Done b w)
               | None => ([EvLoad p i], Fault w)
               end.
Proof. reflexivity. Qed.

(** Runs the program text of [check_buf], splitting on each comparison
    and on each byte lookup. *)
Ltac unfold_check :=
  unfold check_buf, and_then, abort, mbind, M_bind, bind, mret, M_ret, ret.

Ltac split_check :=
  repeat first
    [ progress cbn [fst snd app]
    | rewrite load_eq
    | match goal with
      | |- context [?a >? ?b] => destruct (Z.gtb_spec a b)
      | |- context [match byte_at ?w ?p ?i with _ => _ end] =>
          let E := fresh "E" in destruct (byte_at w p i) eqn:E
      | |- context [char_eqb ?x ?y] =>
          let E := fresh "E" in destruct (char_eqb x y) eqn:E
      end ].

Lemma byte_at_lookup (w : world) (p : positive) (bs : list byte) (i : nat) :
  mem w !! p = Some bs -> byte_at w p i = bs !! i.
Proof. intros H. unfold byte_at. rewrite H. reflexivity. Qed.

(* ===================================================================== *)
(** * The prefix checker *)
(* ===================================================================== *)

(** Whatever [check_buf] does, it leaves the world as it found it. *)
Lemma check_buf_world (buf : positive) (buf_len : Z) (w : world) :
  match (check_buf buf buf_len w).2 with
  | Done _ w' | Aborted w' | Fault w' => w' = w
  | OutOfFuel _ => False
  end.
Proof. unfold_check. split_check; reflexivity. Qed.

(** [check_buf] aborts exactly on a length above 2 and the bytes "abc". *)
Lemma check_buf_aborted (buf : positive) (buf_len : Z) (w w' : world) :
  (check_buf buf buf_len w).2 = Aborted w' <->
  w' = w /\ 3 <= buf_len /\
  byte_at w buf 0 = Some "a"%byte /\
  byte_at w buf 1 = Some "b"%byte /\
  byte_at w buf 2 = Some "c"%byte.
Proof.
  unfold_check. split_check;
    rewrite ?char_eqb_eq, ?char_eqb_neq in *; subst;
    (split;
     [ intros Hr; try discriminate Hr; inversion Hr; subst; repeat split; lia
     | intros (-> & Hl & Hb0 & Hb1 & Hb2); try lia; congruence ]).
Qed.

(** [check_buf] faults exactly when a byte it needs is outside the object. *)
Lemma check_buf_faulted (buf : positive) (buf_len : Z) (w w' : world) :
  (check_buf buf buf_len w).2 = Fault w' ->
  exists i : nat, Z.of_nat i < Z.min buf_len 3 /\ byte_at w buf i = None.
Proof.
  unfold_check. split_check; intros Hr; try discriminate Hr.
  all: first [ exists 0%nat; split; [lia | assumption]
             | exists 1%nat; split; [lia | assumption]
             | exists 2%nat; split; [lia | assumption] ].
Qed.

(** The loads of [check_buf]: indices 0, 1, 2 of [buf], in this order. *)
Lemma check_buf_loads (buf : positive) (buf_len : Z) (w : world) :
  (check_buf buf buf_len w).1 `prefix_of` [EvLoad buf 0; EvLoad buf 1; EvLoad buf 2].
Proof.
  unfold_check. split_check.
  all: first [ by exists [] | by eexists [_] | by eexists [_; _] | by eexists [_; _; _] ].
Qed.

Lemma check_buf_no_fault (buf : positive) (buf_len : Z) (w : world) (bs : list byte) :
  mem w !! buf = Some bs ->
  Z.min buf_len 3 <= Z.of_nat (length bs) ->
  forall w' : world, (check_buf buf buf_len w).2 <> Fault w'.
Proof.
  intros Hbuf Hlen w' Hr.
  apply check_buf_faulted in Hr as (i & Hi & Hnone).
  rewrite (byte_at_lookup _ _ _ _ Hbuf) in Hnone.
  apply lookup_ge_None in Hnone. lia.
Qed.

Lemma check_buf_ends (buf : positive) (buf_len : Z) (w : world) :
  (check_buf buf buf_len w).2 = Done tt w \/
  (check_buf buf buf_len w).2 = Aborted w \/
  (check_buf buf buf_len w).2 = Fault w.
Proof.
  pose proof (check_buf_world buf buf_len w) as Hw.
  destruct (check_buf buf buf_len w).2 as [[] w'| w'| w'| w']; subst; tauto.
Qed.

(** C1: [check_buf(buf, buf_len)], called with a buffer that holds the bytes
    it may inspect, aborts if and only if [buf_len] is at least 3 and the
    bytes at indices 0, 1, 2 are 'a', 'b', 'c'; in every other case it
    returns and the world is as it was. *)
Theorem check_buf_aborts_iff_abc
    (w : world) (buf : positive) (bs : list byte) (buf_len : Z) :
  mem w !! buf = Some bs ->
  Z.min buf_len 3 <= Z.of_nat (length bs) ->
  ((check_buf buf buf_len w).2 = Aborted w <->
     3 <= buf_len /\
     bs !! 0%nat = Some "a"%byte /\
     bs !! 1%nat = Some "b"%byte /\
     bs !! 2%nat = Some "c"%byte)
  /\ ((check_buf buf buf_len w).2 = Aborted w \/
      (check_buf buf buf_len w).2 = Done tt w).
Proof.
  intros Hbuf Hlen. split.
  - rewrite check_buf_aborted, !(byte_at_lookup _ _ _ _ Hbuf). tauto.
  - destruct (check_buf_ends buf buf_len w) as [Hr | [Hr | Hr]]; auto.
    exfalso. exact (check_buf_no_fault _ _ _ _ Hbuf Hlen _ Hr).
Qed.

Lemma check_buf_aborts_iff_abc_witness :
  mem (initial_world ["a"; "b"; "c"; "d"]%byte [] 1) !! input_buf
    = Some ["a"; "b"; "c"; "d"]%byte
  /\ Z.min 4 3 <= Z.of_nat (length ["a"; "b"; "c"; "d"]%byte)
  /\ (check_buf input_buf 4 (initial_world ["a"; "b"; "c"; "d"]%byte [] 1)).2
     = Aborted (initial_world ["a"; "b"; "c"; "d"]%byte [] 1).
Proof.
  assert (Hbuf : mem (initial_world ["a"; "b"; "c"; "d"]%byte [] 1) !! input_buf
                 = Some ["a"; "b"; "c"; "d"]%byte) by reflexivity.
  assert (Hlen : Z.min 4 3 <= Z.of_nat (length ["a"; "b"; "c"; "d"]%byte))
    by (simpl; lia).
  split; [exact Hbuf | split; [exact Hlen |]].
  apply (check_buf_aborts_iff_abc _ _ _ 4 Hbuf Hlen).
  repeat split; [lia | reflexivity ..].
Defined.

(** C2: with [buf_len] equal to 0, 1 or 2, [check_buf] never aborts,
    whatever the memory holds, and on a buffer with that many bytes it
    returns normally. *)
Theorem check_buf_short_never_aborts (buf : positive) (buf_len : Z) :
  0 <= buf_len <= 2 ->
  (forall w w' : world, (check_buf buf buf_len w).2 <> Aborted w')
  /\ (forall (w : world) (bs : list byte),
        mem w !! buf = Some bs -> buf_len <= Z.of_nat (length bs) ->
        (check_buf buf buf_len w).2 = Done tt w).
Proof.
  intros Hshort. split.
  - intros w w' Hr. apply check_buf_aborted in Hr. lia.
  - intros w bs Hbuf Hlen.
    destruct (check_buf_ends buf buf_len w) as [Hr | [Hr | Hr]]; auto.
    + apply check_buf_aborted in Hr. lia.
    + exfalso. refine (check_buf_no_fault _ _ _ _ Hbuf _ _ Hr). lia.
Qed.

Lemma check_buf_short_never_aborts_witness :
  0 <= 2 <= 2
  /\ (check_buf input_buf 2 (initial_world ["a"; "b"]%byte [] 1)).2
     = Done tt (initial_world ["a"; "b"]%byte [] 1).
Proof.
  assert (Hshort : 0 <= 2 <= 2) by lia.
  split; [exact Hshort |].
  apply (proj2 (check_buf_short_never_aborts input_buf 2 Hshort) _ ["a"; "b"]%byte).
  - reflexivity.
  - simpl. lia.
Defined.

(** C7: whenever [check_buf] returns, the whole world (the buffer, the rest
    of memory, standard input, the loop driver) is exactly as before the
    call. *)
Theorem check_buf_frame
    (buf : positive) (buf_len : Z) (w w' : world) (u : unit) :
  (check_buf buf buf_len w).2 = Done u w' -> w' = w.
Proof.
  intros Hr. pose proof (check_buf_world buf buf_len w) as Hw.
  rewrite Hr in Hw. exact Hw.
Qed.

Lemma check_buf_frame_witness :
  (check_buf input_buf 3 (initial_world ["a"; "b"; "x"]%byte [Data ["q"]%byte] 5)).2
    = Done tt (initial_world ["a"; "b"; "x"]%byte [Data ["q"]%byte] 5)
  /\ initial_world ["a"; "b"; "x"]%byte [Data ["q"]%byte] 5
     = initial_world ["a"; "b"; "x"]%byte [Data ["q"]%byte] 5.
Proof.
  assert (Hr : (check_buf input_buf 3
                  (initial_world ["a"; "b"; "x"]%byte [Data ["q"]%byte] 5)).2
               = Done tt (initial_world ["a"; "b"; "x"]%byte [Data ["q"]%byte] 5))
    by reflexivity.
  split; [exact Hr |].
  exact (check_buf_frame _ _ _ _ _ Hr).
Defined.

(** C9: for every [buf_len], every buffer access of [check_buf] is a load
    at index 0, 1 or 2 of [buf]; on a buffer of at least three bytes (the
    100-byte buffer of [main] in particular) no access is out of bounds,
    also for lengths beyond the buffer such as [(size_t)-1]. *)
Theorem check_buf_accesses_in_bounds (w : world) (buf : positive) (buf_len : Z) :
  Forall (fun e : event => exists i : nat, e = EvLoad buf i /\ (i <= 2)%nat)
    (check_buf buf buf_len w).1
  /\ (forall bs : list byte,
        mem w !! buf = Some bs -> (3 <= length bs)%nat ->
        forall w' : world, (check_buf buf buf_len w).2 <> Fault w').
Proof.
  split.
  - destruct (check_buf_loads buf buf_len w) as [k Hk].
    assert (Hall : Forall (fun e : event => exists i : nat, e = EvLoad buf i /\ (i <= 2)%nat)
                     [EvLoad buf 0; EvLoad buf 1; EvLoad buf 2]).
    { repeat constructor; eexists; (split; [reflexivity | lia]). }
    rewrite Hk in Hall. apply Forall_app in Hall. tauto.
  - intros bs Hbuf Hlen. apply (check_buf_no_fault _ _ _ _ Hbuf). lia.
Qed.

Lemma check_buf_accesses_in_bounds_witness :
  mem (initial_world (zeros MAX_BUF_SIZE) [] 1) !! input_buf = Some (zeros MAX_BUF_SIZE)
  /\ (3 <= length (zeros MAX_BUF_SIZE))%nat
  /\ (check_buf input_buf SIZE_MAX (initial_world (zeros MAX_BUF_SIZE) [] 1)).2
     <> Fault (initial_world (zeros MAX_BUF_SIZE) [] 1).
Proof.
  assert (Hbuf : mem (initial_world (zeros MAX_BUF_SIZE) [] 1) !! input_buf
                 = Some (zeros MAX_BUF_SIZE)) by reflexivity.
  assert (Hlen : (3 <= length (zeros MAX_BUF_SIZE))%nat) by (vm_compute; lia).
  split; [exact Hbuf | split; [exact Hlen |]].
  exact (proj2 (check_buf_accesses_in_bounds _ input_buf SIZE_MAX) _ Hbuf Hlen _).
Defined.

(** C10: the way [check_buf] ends depends only on [buf_len] and on the
    first [min(buf_len, 3)] bytes of the buffer: two calls with the same
    length on buffers that agree on these indices end the same way. *)
Theorem check_buf_depends_on_prefix
    (w1 w2 : world) (buf1 buf2 : positive) (bs1 bs2 : list byte) (buf_len : Z) :
  mem w1 !! buf1 = Some bs1 ->
  mem w2 !! buf2 = Some bs2 ->
  (forall i : nat, Z.of_nat i < Z.min buf_len 3 -> bs1 !! i = bs2 !! i) ->
  ending_of (check_buf buf1 buf_len w1).2 = ending_of (check_buf buf2 buf_len w2).2.
Proof.
  intros Hb1 Hb2 Hagree.
  assert (Hat : forall i : nat, Z.of_nat i < Z.min buf_len 3 ->
                                byte_at w1 buf1 i = byte_at w2 buf2 i).
  { intros i Hi. rewrite (byte_at_lookup _ _ _ _ Hb1), (byte_at_lookup _ _ _ _ Hb2).
    auto. }
  clear Hagree Hb1 Hb2. unfold_check.
  repeat first
    [ progress cbn [fst snd app]
    | rewrite !load_eq
    | match goal with
      | |- context [?a >? ?b] => destruct (Z.gtb_spec a b)
      | |- context [byte_at w1 buf1 ?i] => rewrite (Hat i) by lia
      | |- context [match byte_at ?w ?p ?i with _ => _ end] =>
          let E := fresh "E" in destruct (byte_at w p i) eqn:E
      | |- context [char_eqb ?x ?y] =>
          let E := fresh "E" in destruct (char_eqb x y) eqn:E
      end ];
    reflexivity.
Qed.

Lemma check_buf_depends_on_prefix_witness :
  mem (initial_world ["a"; "b"; "c"]%byte [] 1) !! input_buf = Some ["a"; "b"; "c"]%byte
  /\ mem (initial_world ["a"; "b"; "x"; "y"]%byte [Failure] 7) !! input_buf
     = Some ["a"; "b"; "x"; "y"]%byte
  /\ (forall i : nat,
        Z.of_nat i < Z.min 2 3 ->
        ["a"; "b"; "c"]%byte !! i = ["a"; "b"; "x"; "y"]%byte !! i)
  /\ ending_of (check_buf input_buf 2 (initial_world ["a"; "b"; "c"]%byte [] 1)).2
     = ending_of
         (check_buf input_buf 2 (initial_world ["a"; "b"; "x"; "y"]%byte [Failure] 7)).2.
Proof.
  assert (Hb1 : mem (initial_world ["a"; "b"; "c"]%byte [] 1) !! input_buf
                = Some ["a"; "b"; "c"]%byte) by reflexivity.
  assert (Hb2 : mem (initial_world ["a"; "b"; "x"; "y"]%byte [Failure] 7) !! input_buf
                = Some ["a"; "b"; "x"; "y"]%byte) by reflexivity.
  assert (Hagree : forall i : nat,
             Z.of_nat i < Z.min 2 3 ->
             ["a"; "b"; "c"]%byte !! i = ["a"; "b"; "x"; "y"]%byte !! i).
  { intros [| [| i]] Hi; [reflexivity | reflexivity | simpl in Hi; lia]. }
  split; [exact Hb1 | split; [exact Hb2 | split; [exact Hagree |]]].
  exact (check_buf_depends_on_prefix _ _ _ _ _ _ 2 Hb1 Hb2 Hagree).
Defined.

(* ===================================================================== *)
(** * One iteration of the input loop *)
(* ===================================================================== *)

Lemma length_delivered (s : list chunk) : (length (delivered s) <= 100)%nat.
Proof.
  destruct s as [| [bs |] rest]; simpl; try lia.
  rewrite length_take. lia.
Qed.

Lemma memset_input_buf (w : world) (c : byte) :
  buf_ok w ->
  memset input_buf c MAX_BUF_SIZE w
  = ([], Done tt (set_mem w (<[input_buf := replicate MAX_BUF_SIZE c]> (mem w)))).
Proof.
  intros (old & Hold & Hlen). unfold memset. rewrite Hold.
  destruct (decide (MAX_BUF_SIZE ≤ length old)%nat) as [_ | Hn]; [| lia].
  rewrite drop_ge by lia. rewrite app_nil_r. reflexivity.
Qed.

Lemma fill_buf_run (w : world) :
  buf_ok w ->
  fill_buf w
  = ([EvRead (read_value (stdin w)) (delivered (stdin w))],
     Done (to_size_t (read_value (stdin w))) (after_fill w)).
Proof.
  intros Hok. unfold fill_buf.
  rewrite (bind_done _ _ _ _ _ _ (memset_input_buf w "000" Hok)).
  cbn [app]. unfold mbind, M_bind, bind, mret, M_ret, ret, read.
  cbn [Z.eqb negb set_mem stdin mem].
  destruct (stdin w) as [| [bs |] rest] eqn:Hs.
  - cbn. unfold after_fill, set_mem. rewrite Hs. cbn. reflexivity.
  - rewrite lookup_insert_eq. fold (zeros MAX_BUF_SIZE).
    destruct (decide (length (take 100 bs) ≤ length (zeros MAX_BUF_SIZE))%nat)
      as [_ | Hn].
    + cbn [fst snd app]. unfold after_fill, set_stdin, set_mem. rewrite Hs.
      cbn [delivered read_value stream_after mem stdin afl].
      rewrite insert_insert_eq. unfold zeros. rewrite drop_replicate.
      reflexivity.
    + exfalso. apply Hn. unfold zeros. rewrite length_replicate, length_take.
      unfold MAX_BUF_SIZE. lia.
  - cbn. unfold after_fill, set_stdin, set_mem. rewrite Hs. cbn. reflexivity.
Qed.

Lemma starts_abc_lookup (bs : list byte) :
  starts_abc bs = true <->
  bs !! 0%nat = Some "a"%byte /\ bs !! 1%nat = Some "b"%byte /\ bs !! 2%nat = Some "c"%byte.
Proof.
  destruct bs as [| x [| y [| z l]]]; simpl;
    try (split; [discriminate | intros (? & ? & ?); discriminate]).
  rewrite !andb_true_iff, !char_eqb_eq. split.
  - intros [[-> ->] ->]. auto.
  - intros (Hx & Hy & Hz). inversion Hx; inversion Hy; inversion Hz. auto.
Qed.

Lemma to_size_t_small (n : nat) : (n <= 100)%nat -> to_size_t (Z.of_nat n) = Z.of_nat n.
Proof.
  intros Hn. unfold to_size_t, size_t_bits. apply Z.mod_small. lia.
Qed.

Lemma to_size_t_minus_one : to_size_t (-1) = SIZE_MAX.
Proof. reflexivity. Qed.

Lemma after_fill_buf (w : world) :
  mem (after_fill w) !! input_buf
  = Some (delivered (stdin w) ++ zeros (MAX_BUF_SIZE - length (delivered (stdin w)))).
Proof. unfold after_fill. cbn [mem]. apply lookup_insert_eq. Qed.

Lemma after_fill_buf_ok (w : world) : buf_ok (after_fill w).
Proof.
  eexists. split; [apply after_fill_buf |].
  pose proof (length_delivered (stdin w)) as Hd.
  rewrite length_app. unfold zeros. rewrite length_replicate.
  unfold MAX_BUF_SIZE. lia.
Qed.

(** The length [main] passes to [check_buf] aborts exactly on "abc". *)
Lemma abc_after_fill (w : world) :
  (3 <= to_size_t (read_value (stdin w)) /\
   byte_at (after_fill w) input_buf 0 = Some "a"%byte /\
   byte_at (after_fill w) input_buf 1 = Some "b"%byte /\
   byte_at (after_fill w) input_buf 2 = Some "c"%byte)
  <-> starts_abc (delivered (stdin w)) = true.
Proof.
  rewrite !(byte_at_lookup _ _ _ _ (after_fill_buf w)), starts_abc_lookup.
  pose proof (length_delivered (stdin w)) as Hd.
  destruct (stdin w) as [| [bs |] rest] eqn:Hs.
  - cbn. split; [intros (H3 & _); vm_compute in H3; contradiction
                | intros (Hx & _); discriminate Hx].
  - unfold read_value. rewrite to_size_t_small by exact Hd.
    destruct (delivered (Data bs :: rest)) as [| x [| y [| z l]]] eqn:Hg;
      cbn [length] in *;
      try (split; [intros (H3 & _); lia | intros (Hx & Hy & Hz); discriminate]).
    cbn. split; [tauto | intros ?; split; [lia | tauto]].
  - cbn [delivered read_value length]. rewrite to_size_t_minus_one.
    split; [intros (_ & Hx & _); vm_compute in Hx; discriminate Hx
           | intros (Hx & _); discriminate Hx].
Qed.

Lemma check_after_fill (w : world) :
  (check_buf input_buf (to_size_t (read_value (stdin w))) (after_fill w)).2
  = if starts_abc (delivered (stdin w))
    then Aborted (after_fill w)
    else Done tt (after_fill w).
Proof.
  pose proof (abc_after_fill w) as Habc.
  destruct (check_buf_ends input_buf (to_size_t (read_value (stdin w))) (after_fill w))
    as [Hr | [Hr | Hr]].
  - destruct (starts_abc (delivered (stdin w))); [| exact Hr].
    assert (Ha : (check_buf input_buf (to_size_t (read_value (stdin w)))
                    (after_fill w)).2 = Aborted (after_fill w)).
    { apply check_buf_aborted. split; [reflexivity |]. apply Habc. reflexivity. }
    congruence.
  - pose proof Hr as Ha. apply check_buf_aborted in Ha as [_ Ha].
    apply Habc in Ha. rewrite Ha. exact Hr.
  - exfalso. refine (check_buf_no_fault _ _ _ _ (after_fill_buf w) _ _ Hr).
    destruct (after_fill_buf_ok w) as (new & Hnew & Hlen).
    rewrite after_fill_buf in Hnew. inversion Hnew as [Heq].
    rewrite Heq, Hlen. unfold MAX_BUF_SIZE. lia.
Qed.

Lemma loop_body_run (w : world) :
  buf_ok w ->
  loop_body w
  = (EvRead (read_value (stdin w)) (delivered (stdin w))
       :: (check_buf input_buf (to_size_t (read_value (stdin w))) (after_fill w)).1,
     if starts_abc (delivered (stdin w))
     then Aborted (after_fill w)
     else Done tt (after_fill w)).
Proof.
  intros Hok. unfold loop_body.
  rewrite (bind_done _ _ _ _ _ _ (fill_buf_run w Hok)).
  rewrite check_after_fill. reflexivity.
Qed.

(* ===================================================================== *)
(** * A total-correctness rule for [while] *)
(* ===================================================================== *)

Section while_rule.
Variables (cond : M bool) (body : M unit).
(** [Inv]: loop invariant. [B]: what the events of one iteration satisfy.
    [T n]: what the events of at most [n] iterations satisfy. [E]: what
    the events and the world show when the loop was left by [abort()].
    [measure]: an upper bound on the iterations still to come. *)
Variable Inv : world -> Prop.
Variable B : list event -> Prop.
Variable T : nat -> list event -> Prop.
Variable E : list event -> world -> Prop.
Variable measure : world -> nat.

Hypothesis T_nil : forall n : nat, T n [].
Hypothesis T_step : forall (n : nat) (t1 t2 : list event),
    B t1 -> T n t2 -> T (S n) (t1 ++ t2).
Hypothesis T_mono : forall (n m : nat) (t : list event),
    (n <= m)%nat -> T n t -> T m t.
Hypothesis E_app : forall (t1 t2 : list event) (w : world),
    E t2 w -> E (t1 ++ t2) w.
Hypothesis cond_spec : forall w : world, Inv w ->
    exists (b : bool) (w' : world),
      cond w = ([], Done b w') /\ Inv w' /\
      (b = true -> (measure w' < measure w)%nat).
Hypothesis body_spec : forall w : world, Inv w ->
    B (body w).1 /\
    ((exists w' : world,
        (body w).2 = Done tt w' /\ Inv w' /\ (measure w' <= measure w)%nat)
     \/ (exists w' : world, (body w).2 = Aborted w' /\ E (body w).1 w')).

Lemma while_total (fuel : nat) :
  forall w : world, Inv w -> (measure w < fuel)%nat ->
    T (measure w) (while fuel cond body w).1 /\
    ((exists w' : world, (while fuel cond body w).2 = Done tt w' /\ Inv w')
     \/ (exists w' : world,
           (while fuel cond body w).2 = Aborted w' /\
           E (while fuel cond body w).1 w')).
Proof.
  induction fuel as [| fuel IH]; intros w Hinv Hfuel; [lia |].
  destruct (cond_spec w Hinv) as (b & w1 & Hcond & Hinv1 & Hdec).
  cbn [while]. rewrite (bind_done _ _ _ _ _ _ Hcond). cbn [app fst snd].
  destruct b.
  - specialize (Hdec eq_refl).
    destruct (body_spec w1 Hinv1) as [Hb [(w2 & Hbody & Hinv2 & Hle) | (w2 & Hbody & He)]].
    + destruct (body w1) as [t1 r1] eqn:Hrun. cbn [fst snd] in Hb, Hbody. subst r1.
      rewrite (bind_done _ _ _ _ _ _ Hrun). cbn [fst snd].
      destruct (IH w2 Hinv2 ltac:(lia)) as [Ht Hend]. split.
      * apply (T_mono (S (measure w2))); [lia |]. apply T_step; assumption.
      * destruct Hend as [Hend | (w3 & Hend & He)]; [left; exact Hend |].
        right. exists w3. split; [exact Hend |]. apply E_app. exact He.
    + destruct (body w1) as [t1 r1] eqn:Hrun. cbn [fst snd] in Hb, Hbody, He.
      subst r1. rewrite (bind_aborted _ _ _ _ _ Hrun). cbn [fst snd]. split.
      * apply (T_mono 1); [lia |]. rewrite <- (app_nil_r t1).
        apply T_step; [exact Hb | apply T_nil].
      * right. exists w2. split; [reflexivity | exact He].
  - cbn. split; [apply T_nil |]. left. exists w1. split; [reflexivity | exact Hinv1].
Qed.
End while_rule.

(* ===================================================================== *)
(** * The input loop *)
(* ===================================================================== *)

(** Iterations [__AFL_LOOP(1000)] can still grant. *)
Lemma AFL_LOOP_run (max_cnt : nat) (w : world) :
  exists (b : bool) (w' : world),
    AFL_LOOP max_cnt w = ([], Done b w') /\
    mem w' = mem w /\ stdin w' = stdin w /\
    (b = true ->
       (passes (afl w) < max_cnt)%nat /\ (0 < budget (afl w))%nat /\
       afl w' = {| passes := S (passes (afl w)); budget := pred (budget (afl w)) |}) /\
    (b = false ->
       w' = w /\ ((max_cnt <= passes (afl w))%nat \/ budget (afl w) = 0%nat)).
Proof.
  unfold AFL_LOOP.
  destruct (Nat.ltb_spec (passes (afl w)) max_cnt) as [Hp | Hp];
    destruct (Nat.ltb_spec 0 (budget (afl w))) as [Hb | Hb]; cbn [andb].
  - eexists true, _. repeat split; try discriminate; auto.
  - eexists false, _. repeat split; try discriminate; auto. right. lia.
  - eexists false, _. repeat split; try discriminate; auto.
  - eexists false, _. repeat split; try discriminate; auto.
Qed.

Lemma check_buf_only_loads (buf : positive) (buf_len : Z) (w : world) :
  Forall (fun e : event => is_read e = false) (check_buf buf buf_len w).1.
Proof.
  destruct (check_buf_loads buf buf_len w) as [k Hk].
  assert (Hall : Forall (fun e : event => is_read e = false)
                   [EvLoad buf 0; EvLoad buf 1; EvLoad buf 2])
    by (repeat constructor).
  rewrite Hk in Hall. apply Forall_app in Hall. tauto.
Qed.

Lemma reads_app (t1 t2 : list event) : reads (t1 ++ t2) = reads t1 ++ reads t2.
Proof. unfold reads. apply filter_app. Qed.

Lemma reads_only_loads (t : list event) :
  Forall (fun e : event => is_read e = false) t -> reads t = [].
Proof.
  unfold reads. induction 1 as [| e t He _ IH]; [reflexivity |].
  rewrite filter_cons_False by congruence. exact IH.
Qed.

Lemma reads_loop_body (w : world) :
  buf_ok w ->
  reads (loop_body w).1 = [EvRead (read_value (stdin w)) (delivered (stdin w))].
Proof.
  intros Hok. rewrite (loop_body_run w Hok). cbn [fst].
  change (?e :: ?t) with ([e] ++ t). rewrite reads_app.
  rewrite (reads_only_loads _ (check_buf_only_loads _ _ _)). reflexivity.
Qed.

Lemma read_within_delivered (s : list chunk) :
  read_within MAX_BUF_SIZE (EvRead (read_value s) (delivered s)).
Proof.
  split; [apply length_delivered |].
  destruct s as [| [bs |] rest]; cbn; auto.
Qed.

Lemma main_run (fuel : nat) (w : world) :
  main fuel w
  = ((while fuel (AFL_LOOP 1000) loop_body w).1,
     match (while fuel (AFL_LOOP 1000) loop_body w).2 with
     | Done _ w' => Done 0 w'
     | Aborted w' => Aborted w'
     | Fault w' => Fault w'
     | OutOfFuel w' => OutOfFuel w'
     end).
Proof.
  unfold main, AFL_INIT, mbind, M_bind, bind, mret, M_ret, ret.
  destruct (while fuel (AFL_LOOP 1000) loop_body w) as [t [[] w' | w' | w' | w']];
    cbn; rewrite ?app_nil_r; reflexivity.
Qed.

Lemma initial_world_buf_ok (garbage : list byte) (input : list chunk) (cases : nat) :
  length garbage = MAX_BUF_SIZE -> buf_ok (initial_world garbage input cases).
Proof.
  intros Hlen. exists garbage. split; [| exact Hlen].
  unfold initial_world. cbn [mem]. apply lookup_singleton_eq.
Qed.

(** The rule, instantiated at the loop of [main]: the invariant is that the
    buffer keeps its size, the measure what [__AFL_LOOP(1000)] can grant. *)
Section main_loop.
Variable B : list event -> Prop.
Variable T : nat -> list event -> Prop.
Variable E : list event -> world -> Prop.

Hypothesis T_nil : forall n : nat, T n [].
Hypothesis T_step : forall (n : nat) (t1 t2 : list event),
    B t1 -> T n t2 -> T (S n) (t1 ++ t2).
Hypothesis T_mono : forall (n m : nat) (t : list event),
    (n <= m)%nat -> T n t -> T m t.
Hypothesis E_app : forall (t1 t2 : list event) (w : world),
    E t2 w -> E (t1 ++ t2) w.
Hypothesis B_body : forall w : world, buf_ok w -> B (loop_body w).1.
Hypothesis E_body : forall w : world,
    buf_ok w -> starts_abc (delivered (stdin w)) = true ->
    E (loop_body w).1 (after_fill w).

Lemma main_loop_total (fuel : nat) (w : world) :
  buf_ok w -> (1000 - passes (afl w) < fuel)%nat ->
  T (1000 - passes (afl w)) (while fuel (AFL_LOOP 1000) loop_body w).1 /\
  ((exists w' : world,
      (while fuel (AFL_LOOP 1000) loop_body w).2 = Done tt w' /\ buf_ok w')
   \/ (exists w' : world,
         (while fuel (AFL_LOOP 1000) loop_body w).2 = Aborted w' /\
         E (while fuel (AFL_LOOP 1000) loop_body w).1 w')).
Proof.
  intros Hok Hfuel.
  apply (while_total (AFL_LOOP 1000) loop_body buf_ok B T E
           (fun w => (1000 - passes (afl w))%nat)); auto.
  - clear w Hok Hfuel. intros w Hok.
    destruct (AFL_LOOP_run 1000 w) as (b & w' & Hrun & Hmem & _ & Htrue & _).
    exists b, w'. split; [exact Hrun |]. split.
    + destruct Hok as (old & Hold & Hlen). exists old. rewrite Hmem. auto.
    + intros ->. destruct (Htrue eq_refl) as (Hp & _ & Hafl).
      rewrite Hafl. cbn [passes]. lia.
  - clear w Hok Hfuel. intros w Hok. split; [apply B_body; exact Hok |].
    pose proof (E_body w Hok) as He.
    rewrite (loop_body_run w Hok) in *. cbn [fst snd] in *.
    destruct (starts_abc (delivered (stdin w))).
    + right. exists (after_fill w). split; [reflexivity | apply He; reflexivity].
    + left. exists (after_fill w). split; [reflexivity |].
      split; [apply after_fill_buf_ok | reflexivity].
Qed.

Lemma main_total (fuel : nat) (garbage : list byte) (input : list chunk) (cases : nat) :
  length garbage = MAX_BUF_SIZE -> (1000 < fuel)%nat ->
  T 1000 (main fuel (initial_world garbage input cases)).1 /\
  ((exists w' : world,
      (main fuel (initial_world garbage input cases)).2 = Done 0 w' /\ buf_ok w')
   \/ (exists w' : world,
         (main fuel (initial_world garbage input cases)).2 = Aborted w' /\
         E (main fuel (initial_world garbage input cases)).1 w')).
Proof.
  intros Hlen Hfuel. rewrite main_run. cbn [fst snd].
  destruct (main_loop_total fuel (initial_world garbage input cases)
              (initial_world_buf_ok _ _ _ Hlen)) as [Ht Hend].
  { cbn. lia. }
  split; [exact Ht |].
  destruct Hend as [(w' & Hr & Hok) | (w' & Hr & He)]; rewrite Hr; eauto.
Qed.
End main_loop.


(* ===================================================================== *)
(** * The program as a whole *)
(* ===================================================================== *)

(** The scenarios of the specification, run on the embedding (the binary
    started outside the fuzzing engine serves one test case). *)
Example scenario_abc_aborts :
  ending_of (main 1001 (initial_world (zeros MAX_BUF_SIZE)
                          [Data ["a"; "b"; "c"]%byte] 1)).2 = Aborts.
Proof. vm_compute. reflexivity. Qed.

Example scenario_abx_returns :
  exists w' : world,
    (main 1001 (initial_world (zeros MAX_BUF_SIZE) [Data ["a"; "b"; "x"]%byte] 1)).2
    = Done 0 w'.
Proof. eexists. vm_compute. reflexivity. Qed.

Example scenario_eof_returns :
  exists w' : world,
    (main 1001 (initial_world (zeros MAX_BUF_SIZE) [] 1)).2 = Done 0 w'.
Proof. eexists. vm_compute. reflexivity. Qed.

Example scenario_ab_returns :
  exists w' : world,
    (main 1001 (initial_world (zeros MAX_BUF_SIZE) [Data ["a"; "b"]%byte] 1)).2
    = Done 0 w'.
Proof. eexists. vm_compute. reflexivity. Qed.

(** Stale bytes do not complete a short read: "c" left at index 2 by the
    stack, then "ab" read. *)
Example scenario_stale_c_returns :
  exists w' : world,
    (main 1001 (initial_world (replicate MAX_BUF_SIZE "c"%byte)
                  [Data ["a"; "b"]%byte] 1)).2
    = Done 0 w'.
Proof. eexists. vm_compute. reflexivity. Qed.

(** A [read] that returns 0 does not end the loop: the next test case is
    still read and checked. *)
Example scenario_empty_then_abc_aborts :
  ending_of (main 1001 (initial_world (zeros MAX_BUF_SIZE)
                          [Data []; Data ["a"; "b"; "c"]%byte] 2)).2 = Aborts.
Proof. vm_compute. reflexivity. Qed.

(** With too little fuel the embedding of the loop gives up; 1001 rounds
    are enough for every run (see [main_total]). *)
Example scenario_fuel_1000_hangs :
  ending_of (main 1000 (initial_world (zeros MAX_BUF_SIZE) [] 1000)).2 = Hangs.
Proof. vm_compute. reflexivity. Qed.

(** C3: when no iteration's [read] receives bytes that start with 'a', 'b',
    'c', [main] runs to completion and returns 0. *)
Theorem main_exits_normally_without_abc
    (garbage : list byte) (input : list chunk) (cases fuel : nat) :
  length garbage = MAX_BUF_SIZE ->
  (1000 < fuel)%nat ->
  no_abc_read (main fuel (initial_world garbage input cases)).1 ->
  exists w' : world, (main fuel (initial_world garbage input cases)).2 = Done 0 w'.
Proof.
  intros Hlen Hfuel Hquiet.
  destruct (main_total (fun _ => True) (fun _ _ => True)
              (fun t _ => ~ no_abc_read t)) with
    (fuel := fuel) (garbage := garbage) (input := input) (cases := cases)
    as [_ [(w' & Hr & _) | (w' & _ & Hloud)]]; auto.
  - intros t1 t2 _ Hloud Hall. apply Hloud.
    unfold no_abc_read in *. apply Forall_app in Hall. tauto.
  - intros w Hok Habc Hall. rewrite (loop_body_run w Hok) in Hall.
    cbn [fst] in Hall. inversion Hall as [| e t He _]; subst.
    cbn in He. congruence.
  - eauto.
  - contradiction.
Qed.

Lemma main_exits_normally_without_abc_witness :
  length (zeros MAX_BUF_SIZE) = MAX_BUF_SIZE
  /\ (1000 < 1001)%nat
  /\ no_abc_read
       (main 1001 (initial_world (zeros MAX_BUF_SIZE)
                     [Data ["a"; "b"; "x"]%byte; Failure; Data ["a"; "b"]%byte] 4)).1
  /\ exists w' : world,
       (main 1001 (initial_world (zeros MAX_BUF_SIZE)
                     [Data ["a"; "b"; "x"]%byte; Failure; Data ["a"; "b"]%byte] 4)).2
       = Done 0 w'.
Proof.
  assert (Hlen : length (zeros MAX_BUF_SIZE) = MAX_BUF_SIZE) by reflexivity.
  assert (Hfuel : (1000 < 1001)%nat) by lia.
  assert (Hquiet : no_abc_read
            (main 1001 (initial_world (zeros MAX_BUF_SIZE)
               [Data ["a"; "b"; "x"]%byte; Failure; Data ["a"; "b"]%byte] 4)).1).
  { vm_compute. repeat constructor. }
  split; [exact Hlen | split; [exact Hfuel | split; [exact Hquiet |]]].
  exact (main_exits_normally_without_abc _ _ _ _ Hlen Hfuel Hquiet).
Defined.

(** C4: an iteration whose [read] fails ends like one whose [read] returns
    0: [check_buf] returns, the buffer is all zeros, the failed call is
    consumed from the stream, and the rest of the loop runs from the same
    world. *)
Theorem read_failure_like_empty_read (w : world) (rest : list chunk) :
  buf_ok w ->
  (loop_body (set_stdin w (Failure :: rest))).2
    = Done tt {| mem := <[input_buf := zeros MAX_BUF_SIZE]> (mem w);
                 stdin := rest;
                 afl := afl w |}
  /\ (loop_body (set_stdin w (Failure :: rest))).2
     = (loop_body (set_stdin w (Data [] :: rest))).2
  /\ (loop_body (set_stdin w [Failure])).2 = (loop_body (set_stdin w [])).2
  /\ (forall fuel : nat,
        ((loop_body;; while fuel (AFL_LOOP 1000) loop_body)
           (set_stdin w (Failure :: rest))).2
        = ((loop_body;; while fuel (AFL_LOOP 1000) loop_body)
             (set_stdin w (Data [] :: rest))).2).
Proof.
  intros Hok.
  assert (Hs : forall s : list chunk, buf_ok (set_stdin w s)) by (intros s; exact Hok).
  pose proof (loop_body_run _ (Hs (Failure :: rest))) as Hfail.
  pose proof (loop_body_run _ (Hs (Data [] :: rest))) as Hempty.
  pose proof (loop_body_run _ (Hs [Failure])) as Hfail1.
  pose proof (loop_body_run _ (Hs [])) as Heof.
  cbn in Hfail, Hempty, Hfail1, Heof.
  split; [rewrite Hfail; reflexivity |].
  split; [rewrite Hfail, Hempty; reflexivity |].
  split; [rewrite Hfail1, Heof; reflexivity |].
  intros fuel.
  rewrite (bind_done _ _ _ _ _ _ Hfail), (bind_done _ _ _ _ _ _ Hempty).
  reflexivity.
Qed.

Lemma read_failure_like_empty_read_witness :
  buf_ok (initial_world (replicate MAX_BUF_SIZE "a"%byte) [] 3)
  /\ (loop_body (set_stdin (initial_world (replicate MAX_BUF_SIZE "a"%byte) [] 3)
                   [Failure; Data ["a"; "b"; "c"]%byte])).2
     = (loop_body (set_stdin (initial_world (replicate MAX_BUF_SIZE "a"%byte) [] 3)
                     [Data []; Data ["a"; "b"; "c"]%byte])).2.
Proof.
  assert (Hok : buf_ok (initial_world (replicate MAX_BUF_SIZE "a"%byte) [] 3)).
  { eexists. split; reflexivity. }
  split; [exact Hok |].
  exact (proj1 (proj2 (read_failure_like_empty_read _ _ Hok))).
Defined.

(** C5: every iteration first overwrites the whole 100-byte buffer with
    zeros; when [check_buf] is called the buffer holds the bytes just read
    followed by zeros only, so the iteration does not depend on what the
    buffer held before. *)
Theorem buffer_zeroed_every_iteration (w : world) :
  buf_ok w ->
  (memset input_buf "000" MAX_BUF_SIZE w).2
    = Done tt (set_mem w (<[input_buf := zeros MAX_BUF_SIZE]> (mem w)))
  /\ (exists (len : Z) (w' : world),
        (fill_buf w).2 = Done len w' /\
        mem w' !! input_buf
        = Some (delivered (stdin w)
                ++ zeros (MAX_BUF_SIZE - length (delivered (stdin w)))))
  /\ (forall stale : list byte,
        length stale = MAX_BUF_SIZE ->
        loop_body (set_mem w (<[input_buf := stale]> (mem w))) = loop_body w).
Proof.
  intros Hok. split; [| split].
  - rewrite (memset_input_buf w _ Hok). reflexivity.
  - rewrite (fill_buf_run w Hok). eexists _, _. split; [reflexivity |].
    apply after_fill_buf.
  - intros stale Hlen.
    assert (Hok' : buf_ok (set_mem w (<[input_buf := stale]> (mem w)))).
    { exists stale. split; [apply lookup_insert_eq | exact Hlen]. }
    rewrite (loop_body_run _ Hok'), (loop_body_run _ Hok).
    assert (Hsame : after_fill (set_mem w (<[input_buf := stale]> (mem w)))
                    = after_fill w).
    { unfold after_fill, set_mem. cbn [mem stdin afl].
      rewrite insert_insert_eq. reflexivity. }
    rewrite Hsame. reflexivity.
Qed.

Lemma buffer_zeroed_every_iteration_witness :
  buf_ok (initial_world (replicate MAX_BUF_SIZE "c"%byte) [Data ["a"; "b"]%byte] 1)
  /\ loop_body
       (set_mem (initial_world (replicate MAX_BUF_SIZE "c"%byte) [Data ["a"; "b"]%byte] 1)
          (<[input_buf := zeros MAX_BUF_SIZE]>
             (mem (initial_world (replicate MAX_BUF_SIZE "c"%byte)
                     [Data ["a"; "b"]%byte] 1))))
     = loop_body
         (initial_world (replicate MAX_BUF_SIZE "c"%byte) [Data ["a"; "b"]%byte] 1).
Proof.
  assert (Hok : buf_ok (initial_world (replicate MAX_BUF_SIZE "c"%byte)
                          [Data ["a"; "b"]%byte] 1)).
  { eexists. split; reflexivity. }
  split; [exact Hok |].
  apply (proj2 (proj2 (buffer_zeroed_every_iteration _ Hok))). reflexivity.
Defined.

(** C6: in every iteration of every run the [read] stores at most 100
    bytes, the size of the buffer; no store falls outside the buffer, and
    the buffer still has its 100 bytes when [main] ends. *)
Theorem stored_bytes_within_capacity
    (garbage : list byte) (input : list chunk) (cases fuel : nat) :
  length garbage = MAX_BUF_SIZE ->
  (1000 < fuel)%nat ->
  Forall (read_within MAX_BUF_SIZE) (main fuel (initial_world garbage input cases)).1
  /\ exists w' : world,
       ((main fuel (initial_world garbage input cases)).2 = Done 0 w' \/
        (main fuel (initial_world garbage input cases)).2 = Aborted w')
       /\ buf_ok w'.
Proof.
  intros Hlen Hfuel.
  destruct (main_total (Forall (read_within MAX_BUF_SIZE))
              (fun _ => Forall (read_within MAX_BUF_SIZE))
              (fun _ w' => buf_ok w')) with
    (fuel := fuel) (garbage := garbage) (input := input) (cases := cases)
    as [Hall [(w' & Hr & Hok) | (w' & Hr & Hok)]]; auto.
  - intros n t1 t2 H1 H2. apply Forall_app. auto.
  - intros w Hok. rewrite (loop_body_run w Hok). cbn [fst].
    constructor; [apply read_within_delivered |].
    eapply Forall_impl; [apply check_buf_only_loads |].
    intros [p i | r got] He; [exact I | discriminate He].
  - intros w _ _. apply after_fill_buf_ok.
  - split; [exact Hall |]. exists w'. auto.
  - split; [exact Hall |]. exists w'. auto.
Qed.

Lemma stored_bytes_within_capacity_witness :
  length (zeros MAX_BUF_SIZE) = MAX_BUF_SIZE
  /\ (1000 < 1001)%nat
  /\ Forall (read_within MAX_BUF_SIZE)
       (main 1001 (initial_world (zeros MAX_BUF_SIZE)
                     [Data (replicate 250 "a"%byte); Failure] 5)).1.
Proof.
  assert (Hlen : length (zeros MAX_BUF_SIZE) = MAX_BUF_SIZE) by reflexivity.
  assert (Hfuel : (1000 < 1001)%nat) by lia.
  split; [exact Hlen | split; [exact Hfuel |]].
  exact (proj1 (stored_bytes_within_capacity _ _ _ _ Hlen Hfuel)).
Defined.


(* ===================================================================== *)
(** * Further properties of the prefix checker *)
(* ===================================================================== *)

(** X1: a length of 3 or more is as good as 3: [check_buf] performs the
    same loads and ends the same way for every such length, [(size_t)-1]
    included. *)
Theorem check_buf_length_beyond_three (buf : positive) (buf_len : Z) (w : world) :
  3 <= buf_len -> check_buf buf buf_len w = check_buf buf 3 w.
Proof.
  intros Hlen. unfold_check.
  assert (H0 : (buf_len >? 0) = true) by (apply Z.gtb_lt; lia).
  assert (H1 : (buf_len >? 1) = true) by (apply Z.gtb_lt; lia).
  assert (H2 : (buf_len >? 2) = true) by (apply Z.gtb_lt; lia).
  rewrite H0, H1, H2. reflexivity.
Qed.

Lemma check_buf_length_beyond_three_witness :
  3 <= SIZE_MAX
  /\ check_buf input_buf SIZE_MAX (initial_world ["a"; "b"; "c"]%byte [] 1)
     = check_buf input_buf 3 (initial_world ["a"; "b"; "c"]%byte [] 1).
Proof.
  assert (Hlen : 3 <= SIZE_MAX) by (vm_compute; discriminate).
  split; [exact Hlen |].
  exact (check_buf_length_beyond_three _ _ _ Hlen).
Defined.

(** X2: the comparisons are short-circuit: byte 0 is loaded exactly when
    [buf_len > 0], byte 1 exactly when moreover [buf_len > 1] and byte 0 is
    'a', byte 2 exactly when moreover [buf_len > 2] and byte 1 is 'b'. *)
Theorem check_buf_short_circuit
    (w : world) (buf : positive) (bs : list byte) (buf_len : Z) :
  mem w !! buf = Some bs ->
  (EvLoad buf 0 ∈ (check_buf buf buf_len w).1 <-> 0 < buf_len)
  /\ (EvLoad buf 1 ∈ (check_buf buf buf_len w).1 <->
      1 < buf_len /\ bs !! 0%nat = Some "a"%byte)
  /\ (EvLoad buf 2 ∈ (check_buf buf buf_len w).1 <->
      2 < buf_len /\ bs !! 0%nat = Some "a"%byte /\ bs !! 1%nat = Some "b"%byte).
Proof.
  intros Hbuf.
  rewrite <- !(byte_at_lookup _ _ _ _ Hbuf). clear Hbuf.
  unfold_check. split_check;
    rewrite ?char_eqb_eq, ?char_eqb_neq in *; subst;
    rewrite ?elem_of_cons, ?elem_of_nil;
    (repeat split; intros;
     repeat match goal with
            | Hx : _ \/ _ |- _ => destruct Hx
            | Hx : _ /\ _ |- _ => destruct Hx
            | Hx : False |- _ => destruct Hx
            | Hx : EvLoad _ _ = EvLoad _ _ |- _ => discriminate Hx
            end;
     try lia; try congruence; auto).
Qed.

Lemma check_buf_short_circuit_witness :
  mem (initial_world ["a"; "x"; "c"]%byte [] 1) !! input_buf = Some ["a"; "x"; "c"]%byte
  /\ EvLoad input_buf 1 ∈ (check_buf input_buf 3 (initial_world ["a"; "x"; "c"]%byte [] 1)).1
  /\ ~ EvLoad input_buf 2 ∈ (check_buf input_buf 3 (initial_world ["a"; "x"; "c"]%byte [] 1)).1.
Proof.
  assert (Hbuf : mem (initial_world ["a"; "x"; "c"]%byte [] 1) !! input_buf
                 = Some ["a"; "x"; "c"]%byte) by reflexivity.
  split; [exact Hbuf |].
  destruct (check_buf_short_circuit _ _ _ 3 Hbuf) as (_ & H1 & H2). split.
  - apply H1. split; [lia | reflexivity].
  - intros Hin. apply H2 in Hin as (_ & _ & Hb). discriminate Hb.
Defined.

(** X3: the call is unsafe exactly when the length promises more bytes than
    the buffer has and the whole buffer is a beginning of "abc": then, and
    only then, [check_buf] runs off the end of the buffer. *)
Theorem check_buf_faults_iff
    (w : world) (buf : positive) (bs : list byte) (buf_len : Z) :
  mem w !! buf = Some bs ->
  ((check_buf buf buf_len w).2 = Fault w <->
   Z.of_nat (length bs) < Z.min buf_len 3 /\
   take (length bs) ["a"; "b"; "c"]%byte = bs).
Proof.
  intros Hbuf.
  assert (Hat : forall i : nat, byte_at w buf i = bs !! i)
    by (intros i; exact (byte_at_lookup _ _ _ _ Hbuf)).
  clear Hbuf. unfold_check.
  destruct bs as [| x [| y [| z l]]]; split_check;
    repeat match goal with
           | Hx : byte_at _ _ _ = _ |- _ => rewrite Hat in Hx; cbn in Hx
           | Hx : Some _ = Some _ |- _ => inversion Hx; clear Hx; subst
           | Hx : Some _ = None |- _ => discriminate Hx
           | Hx : None = Some _ |- _ => discriminate Hx
           end;
    rewrite ?char_eqb_eq, ?char_eqb_neq in *; subst; cbn [length take];
    (split;
     [ intros Hr; first [discriminate Hr | split; [lia | reflexivity]]
     | intros [Hl Ht]; first [lia | congruence | reflexivity] ]).
Qed.

Lemma check_buf_faults_iff_witness :
  mem (initial_world ["a"; "b"]%byte [] 1) !! input_buf = Some ["a"; "b"]%byte
  /\ (check_buf input_buf 3 (initial_world ["a"; "b"]%byte [] 1)).2
     = Fault (initial_world ["a"; "b"]%byte [] 1).
Proof.
  assert (Hbuf : mem (initial_world ["a"; "b"]%byte [] 1) !! input_buf
                 = Some ["a"; "b"]%byte) by reflexivity.
  split; [exact Hbuf |].
  apply (check_buf_faults_iff _ _ _ 3 Hbuf). split; [cbn; lia | reflexivity].
Defined.

Lemma check_buf_zero_length (buf : positive) (buf_len : Z) (w : world) :
  buf_len <= 0 -> check_buf buf buf_len w = ([], Done tt w).
Proof.
  intros Hlen. unfold_check.
  destruct (Z.gtb_spec buf_len 0); [lia | reflexivity].
Qed.

Lemma check_buf_first_byte_differs
    (buf : positive) (buf_len : Z) (w : world) (b : byte) :
  0 < buf_len -> byte_at w buf 0 = Some b -> b <> "a"%byte ->
  check_buf buf buf_len w = ([EvLoad buf 0], Done tt w).
Proof.
  intros Hlen Hb Hne. unfold_check.
  destruct (Z.gtb_spec buf_len 0); [| lia].
  rewrite load_eq, Hb. cbn [fst snd app].
  apply char_eqb_neq in Hne. rewrite Hne. reflexivity.
Qed.

Lemma check_buf_aborted_trace (buf : positive) (buf_len : Z) (w w' : world) :
  (check_buf buf buf_len w).2 = Aborted w' ->
  (check_buf buf buf_len w).1 = [EvLoad buf 0; EvLoad buf 1; EvLoad buf 2].
Proof.
  unfold_check. split_check; intros Hr; first [discriminate Hr | reflexivity].
Qed.

Lemma quiet_only_loads (t : list event) :
  Forall (fun e : event => is_read e = false) t -> no_abc_read t.
Proof.
  unfold no_abc_read. intros Hall. eapply Forall_impl; [exact Hall |].
  intros [p i | r got] He; [exact I | discriminate He].
Qed.

Lemma starts_abc_take (bs : list byte) : starts_abc (take 100 bs) = starts_abc bs.
Proof. destruct bs as [| x [| y [| z l]]]; reflexivity. Qed.

(* ===================================================================== *)
(** * Further properties of the input loop *)
(* ===================================================================== *)

(** X4: the one difference between a failed [read] and a [read] of 0
    bytes: after the failure [check_buf] gets the length [(size_t)-1],
    loads byte 0 of the buffer, finds the 0 that [memset] put there, and
    returns; after a [read] of 0 bytes it loads nothing. *)
Theorem failed_read_inspects_one_zero_byte (w : world) (rest : list chunk) :
  buf_ok w ->
  loop_body (set_stdin w (Failure :: rest))
    = ([EvRead (-1) []; EvLoad input_buf 0],
       Done tt {| mem := <[input_buf := zeros MAX_BUF_SIZE]> (mem w);
                  stdin := rest;
                  afl := afl w |})
  /\ loop_body (set_stdin w (Data [] :: rest))
     = ([EvRead 0 []],
        Done tt {| mem := <[input_buf := zeros MAX_BUF_SIZE]> (mem w);
                   stdin := rest;
                   afl := afl w |}).
Proof.
  intros Hok. split.
  - assert (Hok' : buf_ok (set_stdin w (Failure :: rest))) by exact Hok.
    rewrite (loop_body_run _ Hok'). cbn [stdin set_stdin delivered read_value starts_abc].
    rewrite to_size_t_minus_one.
    rewrite (check_buf_first_byte_differs _ _ _ "000"%byte).
    + reflexivity.
    + reflexivity.
    + rewrite (byte_at_lookup _ _ _ _ (after_fill_buf _)). reflexivity.
    + discriminate.
  - assert (Hok' : buf_ok (set_stdin w (Data [] :: rest))) by exact Hok.
    rewrite (loop_body_run _ Hok'). cbn [stdin set_stdin delivered read_value starts_abc take length].
    rewrite check_buf_zero_length by (vm_compute; discriminate).
    reflexivity.
Qed.

Lemma failed_read_inspects_one_zero_byte_witness :
  buf_ok (initial_world (replicate MAX_BUF_SIZE "a"%byte) [] 2)
  /\ (loop_body (set_stdin (initial_world (replicate MAX_BUF_SIZE "a"%byte) [] 2)
                   [Failure])).1
     = [EvRead (-1) []; EvLoad input_buf 0].
Proof.
  assert (Hok : buf_ok (initial_world (replicate MAX_BUF_SIZE "a"%byte) [] 2)).
  { eexists. split; reflexivity. }
  split; [exact Hok |].
  rewrite (proj1 (failed_read_inspects_one_zero_byte _ [] Hok)). reflexivity.
Defined.

(** Where the loop stops: either it returns and no [read] received "abc",
    or it aborts in the very iteration whose [read] received "abc". *)
Lemma while_ends_at_first_abc (fuel : nat) :
  forall w : world,
    buf_ok w -> (1000 - passes (afl w) < fuel)%nat ->
    (exists w' : world,
        (while fuel (AFL_LOOP 1000) loop_body w).2 = Done tt w' /\
        no_abc_read (while fuel (AFL_LOOP 1000) loop_body w).1)
    \/ (exists (w' : world) (t0 : list event) (r : Z) (got : list byte),
          (while fuel (AFL_LOOP 1000) loop_body w).2 = Aborted w' /\
          (while fuel (AFL_LOOP 1000) loop_body w).1
          = t0 ++ [EvRead r got; EvLoad input_buf 0; EvLoad input_buf 1;
                   EvLoad input_buf 2] /\
          no_abc_read t0 /\ starts_abc got = true).
Proof.
  induction fuel as [| fuel IH]; intros w Hok Hfuel; [lia |].
  destruct (AFL_LOOP_run 1000 w) as (b & w1 & Hrun & Hmem & Hin & Htrue & Hfalse).
  cbn [while]. rewrite (bind_done _ _ _ _ _ _ Hrun). cbn [app fst snd].
  destruct b.
  - destruct (Htrue eq_refl) as (Hp & Hb & Hafl).
    assert (Hok1 : buf_ok w1).
    { destruct Hok as (old & Hold & Hlen). exists old. rewrite Hmem. auto. }
    pose proof (loop_body_run w1 Hok1) as Hbody.
    pose proof (check_after_fill w1) as Hcheck.
    destruct (starts_abc (delivered (stdin w1))) eqn:Habc.
    + right. rewrite (bind_aborted _ _ _ _ _ Hbody). cbn [fst snd].
      rewrite (check_buf_aborted_trace _ _ _ _ Hcheck).
      exists (after_fill w1), [], (read_value (stdin w1)), (delivered (stdin w1)).
      repeat split; [constructor | exact Habc].
    + rewrite (bind_done _ _ _ _ _ _ Hbody).
      assert (Hq : no_abc_read
                (EvRead (read_value (stdin w1)) (delivered (stdin w1))
                   :: (check_buf input_buf (to_size_t (read_value (stdin w1)))
                         (after_fill w1)).1)).
      { constructor; [exact Habc |].
        apply quiet_only_loads, check_buf_only_loads. }
      destruct (IH (after_fill w1) (after_fill_buf_ok w1)) as
        [(w' & Hr & Hall) | (w' & t0 & r & got & Hr & Ht & Hall & Hgot)].
      * cbn [after_fill afl]. rewrite Hafl. cbn [passes]. lia.
      * left. exists w'. cbn [fst snd]. split; [exact Hr |].
        apply Forall_app. split; assumption.
      * right. cbn [fst snd]. rewrite Ht.
        eexists w', (_ ++ t0), r, got. rewrite app_assoc.
        repeat split; [exact Hr | | exact Hgot].
        apply Forall_app. split; assumption.
  - left. exists w1. cbn. split; [reflexivity | constructor].
Qed.

(** X5: [main] aborts exactly when some [read] of the run received bytes
    that start with "abc", and it does so at once: in an aborted run that
    [read] and the three loads of [check_buf] are the last events, and no
    earlier [read] received "abc". *)
Theorem main_aborts_at_first_abc_read
    (garbage : list byte) (input : list chunk) (cases fuel : nat) :
  length garbage = MAX_BUF_SIZE ->
  (1000 < fuel)%nat ->
  ((exists w' : world, (main fuel (initial_world garbage input cases)).2 = Aborted w')
   <-> ~ no_abc_read (main fuel (initial_world garbage input cases)).1)
  /\ ((exists w' : world, (main fuel (initial_world garbage input cases)).2 = Aborted w')
      -> exists (t0 : list event) (r : Z) (got : list byte),
           (main fuel (initial_world garbage input cases)).1
           = t0 ++ [EvRead r got; EvLoad input_buf 0; EvLoad input_buf 1;
                    EvLoad input_buf 2]
           /\ no_abc_read t0 /\ starts_abc got = true).
Proof.
  intros Hlen Hfuel. rewrite main_run. cbn [fst snd].
  destruct (while_ends_at_first_abc fuel (initial_world garbage input cases))
    as [(w' & Hr & Hall) | (w' & t0 & r & got & Hr & Ht & Hall & Hgot)].
  - apply initial_world_buf_ok. exact Hlen.
  - cbn. lia.
  - rewrite Hr. split.
    + split; [intros (w'' & Hab); discriminate Hab | intros Hn; contradiction].
    + intros (w'' & Hab). discriminate Hab.
  - rewrite Hr, Ht. split.
    + split; [| eauto]. intros _ Hq. unfold no_abc_read in Hq.
      apply Forall_app in Hq as [_ Hq]. inversion Hq as [| e t He _]; subst.
      cbn in He. congruence.
    + intros _. exists t0, r, got. auto.
Qed.

Lemma main_aborts_at_first_abc_read_witness :
  length (zeros MAX_BUF_SIZE) = MAX_BUF_SIZE
  /\ (1000 < 1001)%nat
  /\ ~ no_abc_read
         (main 1001 (initial_world (zeros MAX_BUF_SIZE)
                       [Data ["x"]%byte; Data ["a"; "b"; "c"; "d"]%byte; Failure] 5)).1.
Proof.
  assert (Hlen : length (zeros MAX_BUF_SIZE) = MAX_BUF_SIZE) by reflexivity.
  assert (Hfuel : (1000 < 1001)%nat) by lia.
  split; [exact Hlen | split; [exact Hfuel |]].
  apply (proj1 (main_aborts_at_first_abc_read _ _ _ _ Hlen Hfuel)).
  eexists. vm_compute. reflexivity.
Defined.

Lemma AFL_LOOP_grants (max_cnt : nat) (w : world) :
  (passes (afl w) < max_cnt)%nat -> (0 < budget (afl w))%nat ->
  AFL_LOOP max_cnt w
  = ([], Done true (set_afl w {| passes := S (passes (afl w));
                                 budget := pred (budget (afl w)) |})).
Proof.
  intros Hp Hb. unfold AFL_LOOP.
  destruct (Nat.ltb_spec (passes (afl w)) max_cnt); [| lia].
  destruct (Nat.ltb_spec 0 (budget (afl w))); [| lia].
  reflexivity.
Qed.

(** X6: when the bytes ready for the first [read] start with "abc" and the
    driver grants one iteration, [main] aborts in that iteration, whatever
    the stack left in the buffer and whatever follows on standard input: the
    run is one [read] and three loads, and the rest of the input is left
    unread. *)
Theorem abc_first_aborts_at_once
    (garbage bs : list byte) (rest : list chunk) (cases fuel : nat) :
  length garbage = MAX_BUF_SIZE ->
  (0 < cases)%nat ->
  (0 < fuel)%nat ->
  starts_abc bs = true ->
  main fuel (initial_world garbage (Data bs :: rest) cases)
  = ([EvRead (Z.of_nat (length (take 100 bs))) (take 100 bs);
      EvLoad input_buf 0; EvLoad input_buf 1; EvLoad input_buf 2],
     Aborted
       {| mem := <[input_buf :=
                     take 100 bs ++ zeros (MAX_BUF_SIZE - length (take 100 bs))]>
                   {[ input_buf := garbage ]};
          stdin := stream_after (Data bs :: rest);
          afl := {| passes := 1; budget := pred cases |} |}).
Proof.
  intros Hlen Hcases Hfuel Habc. destruct fuel as [| fuel]; [lia |].
  rewrite main_run. cbn [while].
  pose proof (initial_world_buf_ok garbage (Data bs :: rest) cases Hlen) as Hok.
  rewrite (bind_done _ _ _ _ _ _
             (AFL_LOOP_grants 1000 (initial_world garbage (Data bs :: rest) cases)
                ltac:(cbn; lia) ltac:(cbn; lia))).
  cbn [app fst snd].
  set (w1 := set_afl (initial_world garbage (Data bs :: rest) cases) _).
  assert (Hok1 : buf_ok w1) by exact Hok.
  pose proof (loop_body_run w1 Hok1) as Hbody.
  pose proof (check_after_fill w1) as Hcheck.
  cbn [w1 set_afl stdin initial_world delivered] in Hbody, Hcheck.
  rewrite starts_abc_take, Habc in Hbody, Hcheck.
  rewrite (check_buf_aborted_trace _ _ _ _ Hcheck) in Hbody.
  rewrite (bind_aborted _ _ _ _ _ Hbody). reflexivity.
Qed.

Lemma abc_first_aborts_at_once_witness :
  length (replicate MAX_BUF_SIZE "z"%byte) = MAX_BUF_SIZE
  /\ (0 < 1)%nat /\ (0 < 1)%nat
  /\ starts_abc ["a"; "b"; "c"; "d"]%byte = true
  /\ ending_of
       (main 1 (initial_world (replicate MAX_BUF_SIZE "z"%byte)
                  [Data ["a"; "b"; "c"; "d"]%byte; Failure] 1)).2 = Aborts.
Proof.
  assert (Hlen : length (replicate MAX_BUF_SIZE "z"%byte) = MAX_BUF_SIZE) by reflexivity.
  assert (H1 : (0 < 1)%nat) by lia.
  assert (Habc : starts_abc ["a"; "b"; "c"; "d"]%byte = true) by reflexivity.
  split; [exact Hlen | split; [exact H1 | split; [exact H1 | split; [exact Habc |]]]].
  rewrite (abc_first_aborts_at_once _ _ [Failure] 1 1 Hlen H1 H1 Habc). reflexivity.
Defined.

Lemma while_small_chunks (fuel : nat) :
  forall w : world,
    buf_ok w -> Forall chunk_small (stdin w) ->
    (1000 - passes (afl w) < fuel)%nat ->
    if existsb chunk_abc
         (take (Nat.min (budget (afl w)) (1000 - passes (afl w))) (stdin w))
    then exists w' : world, (while fuel (AFL_LOOP 1000) loop_body w).2 = Aborted w'
    else exists w' : world,
        (while fuel (AFL_LOOP 1000) loop_body w).2 = Done tt w' /\
        stdin w' = drop (Nat.min (budget (afl w)) (1000 - passes (afl w))) (stdin w).
Proof.
  induction fuel as [| fuel IH]; intros w Hok Hsmall Hfuel; [lia |].
  destruct (AFL_LOOP_run 1000 w) as (b & w1 & Hrun & Hmem & Hin & Htrue & Hfalse).
  cbn [while]. rewrite (bind_done _ _ _ _ _ _ Hrun). cbn [app fst snd].
  destruct b.
  - destruct (Htrue eq_refl) as (Hp & Hb & Hafl).
    assert (Hok1 : buf_ok w1).
    { destruct Hok as (old & Hold & Hlen). exists old. rewrite Hmem. auto. }
    pose proof (loop_body_run w1 Hok1) as Hbody. rewrite Hin in Hbody.
    replace (Nat.min (budget (afl w)) (1000 - passes (afl w)))
      with (S (Nat.min (pred (budget (afl w))) (1000 - S (passes (afl w)))))
      by lia.
    specialize (IH (after_fill w1) (after_fill_buf_ok w1)).
    cbn [after_fill afl stdin] in IH. rewrite Hafl, Hin in IH.
    cbn [passes budget] in IH.
    assert (Hfuel' : (1000 - S (passes (afl w)) < fuel)%nat) by lia.
    destruct (stdin w) as [| c rest] eqn:Hs.
    + cbn in Hbody. rewrite (bind_done _ _ _ _ _ _ Hbody). cbn [fst snd].
      specialize (IH ltac:(constructor) Hfuel'). cbn [stream_after] in IH.
      rewrite take_nil in *. rewrite drop_nil in *. exact IH.
    + inversion Hsmall as [| c' rest' Hc Hrest]; subst c' rest'.
      assert (Hd : starts_abc (delivered (c :: rest)) = chunk_abc c
                   /\ stream_after (c :: rest) = rest).
      { destruct c as [bs |]; cbn in Hc |- *; [| auto].
        rewrite take_ge, drop_ge by lia. auto. }
      destruct Hd as [Hd1 Hd2]. rewrite Hd1 in Hbody. rewrite Hd2 in IH.
      cbn [take existsb drop]. destruct (chunk_abc c).
      * cbn [orb]. rewrite (bind_aborted _ _ _ _ _ Hbody). eauto.
      * cbn [orb]. rewrite (bind_done _ _ _ _ _ _ Hbody). cbn [fst snd].
        exact (IH Hrest Hfuel').
  - destruct (Hfalse eq_refl) as (-> & Hstop).
    replace (Nat.min (budget (afl w)) (1000 - passes (afl w))) with 0%nat by lia.
    cbn. exists w. split; reflexivity.
Qed.

(** X7: on an input whose chunks each fit one [read], [main] examines
    exactly the first [min(cases, 1000)] chunks: it aborts if one of them
    starts with "abc"; otherwise it returns 0 and has consumed exactly these
    chunks, so "abc" in a later chunk goes unnoticed. *)
Theorem main_checks_the_granted_chunks
    (garbage : list byte) (input : list chunk) (cases fuel : nat) :
  length garbage = MAX_BUF_SIZE ->
  (1000 < fuel)%nat ->
  Forall chunk_small input ->
  (existsb chunk_abc (take (Nat.min cases 1000) input) = true ->
   exists w' : world, (main fuel (initial_world garbage input cases)).2 = Aborted w')
  /\ (existsb chunk_abc (take (Nat.min cases 1000) input) = false ->
      exists w' : world,
        (main fuel (initial_world garbage input cases)).2 = Done 0 w' /\
        stdin w' = drop (Nat.min cases 1000) input).
Proof.
  intros Hlen Hfuel Hsmall. rewrite main_run. cbn [fst snd].
  pose proof (while_small_chunks fuel (initial_world garbage input cases)
                (initial_world_buf_ok _ _ _ Hlen) Hsmall ltac:(cbn; lia)) as Hw.
  cbn [initial_world afl stdin passes budget] in Hw. rewrite Nat.sub_0_r in Hw.
  destruct (existsb chunk_abc (take (Nat.min cases 1000) input)).
  - destruct Hw as (w' & Hr). rewrite Hr. split; [eauto | discriminate].
  - destruct Hw as (w' & Hr & Hs). rewrite Hr. split; [discriminate | eauto].
Qed.

Lemma main_checks_the_granted_chunks_witness :
  length (zeros MAX_BUF_SIZE) = MAX_BUF_SIZE
  /\ (1000 < 1001)%nat
  /\ Forall chunk_small [Data ["x"]%byte; Failure; Data ["a"; "b"; "c"]%byte]
  /\ existsb chunk_abc
       (take (Nat.min 2 1000) [Data ["x"]%byte; Failure; Data ["a"; "b"; "c"]%byte])
     = false
  /\ exists w' : world,
       (main 1001 (initial_world (zeros MAX_BUF_SIZE)
                     [Data ["x"]%byte; Failure; Data ["a"; "b"; "c"]%byte] 2)).2
       = Done 0 w'
       /\ stdin w' = [Data ["a"; "b"; "c"]%byte].
Proof.
  assert (Hlen : length (zeros MAX_BUF_SIZE) = MAX_BUF_SIZE) by reflexivity.
  assert (Hfuel : (1000 < 1001)%nat) by lia.
  assert (Hsmall : Forall chunk_small
                     [Data ["x"]%byte; Failure; Data ["a"; "b"; "c"]%byte]).
  { repeat constructor; cbn; lia. }
  assert (Hnone : existsb chunk_abc
            (take (Nat.min 2 1000) [Data ["x"]%byte; Failure; Data ["a"; "b"; "c"]%byte])
          = false) by reflexivity.
  split; [exact Hlen | split; [exact Hfuel | split; [exact Hsmall | split; [exact Hnone |]]]].
  exact (proj2 (main_checks_the_granted_chunks _ _ 2 _ Hlen Hfuel Hsmall) Hnone).
Defined.

Lemma check_buf_loads_in_prefix (buf_len : Z) (w : world) :
  Forall load_in_prefix (check_buf input_buf buf_len w).1.
Proof.
  destruct (check_buf_loads input_buf buf_len w) as [k Hk].
  assert (Hall : Forall load_in_prefix
                   [EvLoad input_buf 0; EvLoad input_buf 1; EvLoad input_buf 2]).
  { repeat constructor; cbn; lia. }
  rewrite Hk in Hall. apply Forall_app in Hall. tauto.
Qed.

(** X8: a run of [main] is memory safe: every load is from one of the first
    three bytes of [input_buf], and the run never ends in an access outside
    an object; with 1001 rounds of fuel the embedding of the loop always
    reaches the end of the run. *)
Theorem main_memory_safe
    (garbage : list byte) (input : list chunk) (cases fuel : nat) :
  length garbage = MAX_BUF_SIZE ->
  (1000 < fuel)%nat ->
  Forall load_in_prefix (main fuel (initial_world garbage input cases)).1
  /\ ending_of (main fuel (initial_world garbage input cases)).2 <> Faults
  /\ ending_of (main fuel (initial_world garbage input cases)).2 <> Hangs.
Proof.
  intros Hlen Hfuel.
  destruct (main_total (Forall load_in_prefix) (fun _ => Forall load_in_prefix)
              (fun _ _ => True)) with
    (fuel := fuel) (garbage := garbage) (input := input) (cases := cases)
    as [Hall [(w' & Hr & _) | (w' & Hr & _)]]; auto.
  - intros n t1 t2 H1 H2. apply Forall_app. auto.
  - intros w Hok. rewrite (loop_body_run w Hok). cbn [fst].
    constructor; [exact I | apply check_buf_loads_in_prefix].
  - rewrite Hr. repeat split; [exact Hall | discriminate | discriminate].
  - rewrite Hr. repeat split; [exact Hall | discriminate | discriminate].
Qed.

Lemma main_memory_safe_witness :
  length (replicate MAX_BUF_SIZE "a"%byte) = MAX_BUF_SIZE
  /\ (1000 < 1001)%nat
  /\ ending_of
       (main 1001 (initial_world (replicate MAX_BUF_SIZE "a"%byte)
                     [Failure; Data (replicate 300 "b"%byte)] 9)).2 <> Faults.
Proof.
  assert (Hlen : length (replicate MAX_BUF_SIZE "a"%byte) = MAX_BUF_SIZE) by reflexivity.
  assert (Hfuel : (1000 < 1001)%nat) by lia.
  split; [exact Hlen | split; [exact Hfuel |]].
  exact (proj1 (proj2 (main_memory_safe _ _ _ _ Hlen Hfuel))).
Defined.

Lemma while_read_count (fuel : nat) :
  forall w : world,
    buf_ok w -> (1000 - passes (afl w) < fuel)%nat ->
    (length (reads (while fuel (AFL_LOOP 1000) loop_body w).1)
     <= Nat.min (budget (afl w)) (1000 - passes (afl w)))%nat
    /\ (forall w' : world,
          (while fuel (AFL_LOOP 1000) loop_body w).2 = Done tt w' ->
          length (reads (while fuel (AFL_LOOP 1000) loop_body w).1)
          = Nat.min (budget (afl w)) (1000 - passes (afl w))
          /\ passes (afl w')
             = (passes (afl w) + Nat.min (budget (afl w)) (1000 - passes (afl w)))%nat
          /\ budget (afl w')
             = (budget (afl w) - Nat.min (budget (afl w)) (1000 - passes (afl w)))%nat).
Proof.
  induction fuel as [| fuel IH]; intros w Hok Hfuel; [lia |].
  destruct (AFL_LOOP_run 1000 w) as (b & w1 & Hrun & Hmem & Hin & Htrue & Hfalse).
  cbn [while]. rewrite (bind_done _ _ _ _ _ _ Hrun). cbn [app fst snd].
  destruct b.
  - destruct (Htrue eq_refl) as (Hp & Hb & Hafl).
    assert (Hok1 : buf_ok w1).
    { destruct Hok as (old & Hold & Hlen). exists old. rewrite Hmem. auto. }
    pose proof (reads_loop_body w1 Hok1) as Hreads.
    pose proof (loop_body_run w1 Hok1) as Hbody.
    destruct (loop_body w1) as [tb rb] eqn:Hlb. cbn [fst] in Hreads.
    injection Hbody as Htb Hrb.
    destruct (starts_abc (delivered (stdin w1))).
    + subst rb. rewrite (bind_aborted _ _ _ _ _ Hlb). cbn [fst snd].
      rewrite Hreads. cbn [length]. split; [lia | discriminate].
    + subst rb. rewrite (bind_done _ _ _ _ _ _ Hlb). cbn [fst snd].
      rewrite reads_app, length_app, Hreads. cbn [length].
      destruct (IH (after_fill w1) (after_fill_buf_ok w1)) as [Hle Heq].
      { cbn [after_fill afl]. rewrite Hafl. cbn [passes]. lia. }
      cbn [after_fill afl] in Hle, Heq. rewrite Hafl in Hle, Heq.
      cbn [passes budget] in Hle, Heq.
      split; [lia |]. intros w' Hr. specialize (Heq w' Hr). lia.
  - destruct (Hfalse eq_refl) as (-> & Hstop). cbn.
    split; [lia |]. intros w' Hr. injection Hr as <-. lia.
Qed.

(** X9: every iteration the driver grants performs exactly one [read], with
    input left or not: a run never reads more than [min(cases, 1000)] times,
    and a run that returns has read exactly that many times and has used up
    the iterations the driver would grant. *)
Theorem main_reads_once_per_granted_iteration
    (garbage : list byte) (input : list chunk) (cases fuel : nat) :
  length garbage = MAX_BUF_SIZE ->
  (1000 < fuel)%nat ->
  (length (reads (main fuel (initial_world garbage input cases)).1)
   <= Nat.min cases 1000)%nat
  /\ (forall w' : world,
        (main fuel (initial_world garbage input cases)).2 = Done 0 w' ->
        length (reads (main fuel (initial_world garbage input cases)).1)
        = Nat.min cases 1000
        /\ passes (afl w') = Nat.min cases 1000
        /\ budget (afl w') = (cases - Nat.min cases 1000)%nat).
Proof.
  intros Hlen Hfuel. rewrite main_run. cbn [fst snd].
  destruct (while_read_count fuel (initial_world garbage input cases)
              (initial_world_buf_ok _ _ _ Hlen) ltac:(cbn; lia)) as [Hle Heq].
  cbn [initial_world afl passes budget] in Hle, Heq.
  rewrite Nat.sub_0_r in Hle, Heq. split; [exact Hle |].
  intros w' Hr.
  destruct (while fuel (AFL_LOOP 1000) loop_body (initial_world garbage input cases)).2
    as [[] w'' | w'' | w'' | w''] eqn:Hw; try discriminate Hr.
  injection Hr as <-. destruct (Heq w'' eq_refl) as (H1 & H2 & H3).
  repeat split; [exact H1 | lia | exact H3].
Qed.

Lemma main_reads_once_per_granted_iteration_witness :
  length (zeros MAX_BUF_SIZE) = MAX_BUF_SIZE
  /\ (1000 < 1001)%nat
  /\ (length (reads (main 1001 (initial_world (zeros MAX_BUF_SIZE)
                                  [Data ["a"; "b"]%byte] 4)).1)
      <= Nat.min 4 1000)%nat.
Proof.
  assert (Hlen : length (zeros MAX_BUF_SIZE) = MAX_BUF_SIZE) by reflexivity.
  assert (Hfuel : (1000 < 1001)%nat) by lia.
  split; [exact Hlen | split; [exact Hfuel |]].
  exact (proj1 (main_reads_once_per_granted_iteration _ _ 4 _ Hlen Hfuel)).
Defined.

(** X10: the length [main] hands to [check_buf] is the number of bytes the
    [read] stored, at most 100, except after a failed [read]: the -1 is
    converted to [size_t] unchecked, so the length is then [2^64 - 1], far
    beyond the buffer, while no byte was stored. *)
Theorem fill_buf_length (w : world) :
  buf_ok w ->
  exists len : Z,
    (fill_buf w).2 = Done len (after_fill w)
    /\ match stdin w with
       | Failure :: _ => len = SIZE_MAX /\ delivered (stdin w) = []
       | _ => len = Z.of_nat (length (delivered (stdin w))) /\ 0 <= len <= 100
       end.
Proof.
  intros Hok. rewrite (fill_buf_run w Hok). eexists. split; [reflexivity |].
  pose proof (length_delivered (stdin w)) as Hd.
  destruct (stdin w) as [| [bs |] rest].
  - unfold read_value. rewrite to_size_t_small by exact Hd. split; [reflexivity | lia].
  - unfold read_value. rewrite to_size_t_small by exact Hd. split; [reflexivity | lia].
  - split; reflexivity.
Qed.

Lemma fill_buf_length_witness :
  buf_ok (initial_world (zeros MAX_BUF_SIZE) [Failure] 1)
  /\ (fill_buf (initial_world (zeros MAX_BUF_SIZE) [Failure] 1)).2
     = Done SIZE_MAX (after_fill (initial_world (zeros MAX_BUF_SIZE) [Failure] 1)).
Proof.
  assert (Hok : buf_ok (initial_world (zeros MAX_BUF_SIZE) [Failure] 1)).
  { eexists. split; reflexivity. }
  split; [exact Hok |].
  destruct (fill_buf_length _ Hok) as (len & Hr & Hlen).
  cbn [initial_world stdin] in Hlen. destruct Hlen as [-> _]. exact Hr.
Defined.

(* ===================================================================== *)
(** * Termination of the input loop *)
(* ===================================================================== *)


(** The loop of [main] on the bare end of file, with a driver that serves
    1000 test cases: 1000 iterations, each with a [read] that returns 0,
    then [main] returns 0. *)
Example scenario_eof_persistent :
  exists w' : world,
    main 1001 (initial_world (zeros MAX_BUF_SIZE) [] 1000)
    = (replicate 1000 (EvRead 0 []), Done 0 w').
Proof. eexists. vm_compute. reflexivity. Qed.


